(** * Math utilities and calculator of the C test fixtures

    A shallow embedding of [math_utils.c] ([factorial], [is_prime],
    [power]) and of [divide] from [main.c]. The C type [int] is taken
    as a 32-bit two's complement integer; C leaves the overflow of [int]
    arithmetic undefined, and here it wraps around, as it does on the
    usual targets. *)

From Equations Require Import Equations.
From Stdlib Require Import ZArith QArith List Lia Bool String DecimalString.
Import ListNotations.

Local Open Scope Z_scope.

(** ** The C type [int] *)

(** An [int] is a [Z] between [int_min] and [int_max]; the arithmetic
    operators compute in [Z] and [wrap] the result back into that range
    (two's complement wrap-around). *)
Module Int32.

Definition int_min : Z := - 2 ^ 31.
Definition int_max : Z := 2 ^ 31 - 1.
Definition modulus : Z := 2 ^ 32.

Definition in_range (z : Z) : Prop := int_min <= z <= int_max.

Definition wrap (z : Z) : Z := (z - int_min) mod modulus + int_min.

Definition add (a b : Z) : Z := wrap (a + b).
Definition sub (a b : Z) : Z := wrap (a - b).
Definition mul (a b : Z) : Z := wrap (a * b).

(** [a % b]: the remainder of the division that truncates toward zero.
    There is no value when [b] is zero, nor for [INT_MIN % -1], whose
    quotient is not an [int]. *)
Definition rem (a b : Z) : option Z :=
  if b =? 0 then None
  else if (a =? int_min) && (b =? -1) then None
  else Some (Z.rem a b).

Lemma wrap_in_range z : in_range (wrap z).
Proof.
  unfold in_range, wrap, int_min, int_max, modulus.
  pose proof (Z.mod_pos_bound (z - - 2 ^ 31) (2 ^ 32) eq_refl). lia.
Qed.

Lemma wrap_small z : in_range z -> wrap z = z.
Proof.
  unfold in_range, wrap, int_min, int_max, modulus. intros Hz.
  rewrite Z.mod_small by lia. lia.
Qed.

Lemma wrap_eqm z : wrap z mod modulus = z mod modulus.
Proof.
  unfold wrap, int_min, modulus.
  rewrite Zplus_mod_idemp_l. f_equal. lia.
Qed.

Lemma wrap_congr a b : a mod modulus = b mod modulus -> wrap a = wrap b.
Proof.
  intros Hab. unfold wrap. f_equal.
  rewrite <- (Zminus_mod_idemp_l a), <- (Zminus_mod_idemp_l b).
  now rewrite Hab.
Qed.

Lemma wrap_mul_l a b : wrap (wrap a * b) = wrap (a * b).
Proof.
  apply wrap_congr.
  rewrite <- (Zmult_mod_idemp_l (wrap a)), wrap_eqm.
  apply Zmult_mod_idemp_l.
Qed.

Lemma wrap_le_above z : int_min <= z -> wrap z <= z.
Proof.
  intros Hz. destruct (Z_le_gt_dec z int_max) as [Hle | Hgt].
  - rewrite wrap_small; [lia | split; assumption].
  - pose proof (wrap_in_range z) as [_ Hw]. lia.
Qed.

End Int32.

(** ** [math_utils.c] *)

(** A call either returns an [int] or has no value: [None] stands for
    an undefined [%] or for a loop that is still running when the fuel
    is used up. *)
Definition bind {A B : Type} (c : option A) (k : A -> option B) : option B :=
  match c with
  | Some a => k a
  | None => None
  end.

Notation "x <- c ;; k" := (bind c (fun x => k))
  (at level 61, c at next level, right associativity).

Opaque Int32.wrap.

(** [factorial]: the recursion stops at [n <= 1]; above, the argument
    of the recursive call is [n - 1], which is smaller. *)
Equations? factorial (n : Z) : Z by wf (Z.to_nat n) lt :=
  factorial n with Z_le_gt_dec n 1 := {
    | left _ := 1
    | right _ := Int32.mul n (factorial (Int32.sub n 1)) }.
Proof.
  unfold Int32.sub.
  assert (Int32.wrap (n - 1) <= n - 1).
  { apply Int32.wrap_le_above. unfold Int32.int_min. lia. }
  lia.
Qed.

Transparent Int32.wrap.

(** [is_prime]: the [for] loop, entered with [i = 3]. One unit of fuel
    pays for one evaluation of the loop condition [i * i <= n]. *)
Fixpoint is_prime_loop (fuel : nat) (n i : Z) : option Z :=
  match fuel with
  | O => None
  | S fuel' =>
      if Int32.mul i i <=? n then
        r <- Int32.rem n i ;;
        if r =? 0 then Some 0
        else is_prime_loop fuel' n (Int32.add i 2)
      else Some 1
  end.

(** The loop is given [n] units of fuel: [i] starts at 3 and grows by 2,
    and at [i = n] the remainder is zero ([is_prime_returns] below shows
    that this is always enough). *)
Definition is_prime (n : Z) : option Z :=
  if n <=? 1 then Some 0
  else if n =? 2 then Some 1
  else
    r <- Int32.rem n 2 ;;
    if r =? 0 then Some 0
    else is_prime_loop (Z.to_nat n) n 3.

(** [power]: the [for] loop over [i], with the accumulator [result]. *)
Fixpoint power_loop (fuel : nat) (base exponent i result : Z) : option Z :=
  match fuel with
  | O => None
  | S fuel' =>
      if i <? exponent then
        power_loop fuel' base exponent (Int32.add i 1) (Int32.mul result base)
      else Some result
  end.

(** The condition [i < exponent] is evaluated [exponent + 1] times, once
    when [exponent] is not positive. *)
Definition power (base exponent : Z) : option Z :=
  power_loop (S (Z.to_nat exponent)) base exponent 0 1.

(** ** [main.c]: the calculator's [divide] *)

Module Calculator.

(** What a call leaves behind: the value returned with the text sent to
    standard output, or a division whose divisor is zero. *)
Inductive outcome (A : Type) : Type :=
| Returns (value : A) (printed : list string)
| DivisionByZero.

Arguments Returns {A} value printed.
Arguments DivisionByZero {A}.

Definition ret {A : Type} (a : A) : outcome A := Returns a [].

Definition and_then {A B : Type} (c : outcome A) (k : A -> outcome B)
  : outcome B :=
  match c with
  | Returns a out =>
      match k a with
      | Returns b out' => Returns b (out ++ out')
      | DivisionByZero => DivisionByZero
      end
  | DivisionByZero => DivisionByZero
  end.

Definition printf (text : string) : outcome unit := Returns tt [text].

Definition newline : string := String (Ascii.ascii_of_nat 10) EmptyString.

Definition error_message : string :=
  ("Error: Division by zero!" ++ newline)%string.

Section Divide.

(** The type [float] with the three things [divide] needs of it: the
    conversion of an [int], the quotient of two floats and the constant
    [0.0]. *)
Variable float : Type.
Variable float_of_int : Z -> float.
Variable float_quotient : float -> float -> float.
Variable float_zero : float.

(** The expression [x / b] with [b] an [int], converted to [float] for
    the division: it has a value only when [b] is not zero. *)
Definition float_div (x : float) (b : Z) : outcome float :=
  if b =? 0 then DivisionByZero
  else ret (float_quotient x (float_of_int b)).

Definition divide (a b : Z) : outcome float :=
  if b =? 0 then
    and_then (printf error_message) (fun _ => ret float_zero)
  else
    float_div (float_of_int a) b.

End Divide.

End Calculator.

(** ** [main.c]: the menu loop *)

Module Menu.

(** [add], [subtract] and [multiply] on [int]. *)
Definition add (a b : Z) : Z := Int32.add a b.
Definition subtract (a b : Z) : Z := Int32.sub a b.
Definition multiply (a b : Z) : Z := Int32.mul a b.

(** The program's surroundings: the integers that the calls of
    [scanf("%d", ...)] will read, in order, and the texts printed so
    far, one per call of [printf]. *)
Record world : Type := World { stdin : list Z; stdout : list string }.

(** How a computation ends: with a value; at a division by zero; or
    not yet, the loop still running in the world [w] when the fuel is
    used up. *)
Inductive outcome (A : Type) : Type :=
| Ok (value : A) (w : world)
| DivisionByZero (w : world)
| Running (w : world).

Arguments Ok {A} value w.
Arguments DivisionByZero {A} w.
Arguments Running {A} w.

Definition action (A : Type) : Type := world -> outcome A.

Definition ret {A : Type} (a : A) : action A := fun w => Ok a w.

Definition bind {A B : Type} (c : action A) (k : A -> action B) : action B :=
  fun w =>
    match c w with
    | Ok a w' => k a w'
    | DivisionByZero w' => DivisionByZero w'
    | Running w' => Running w'
    end.

Declare Scope menu_scope.
Delimit Scope menu_scope with menu.
Notation "x <- c ;; k" := (bind c (fun x => k))
  (at level 61, c at next level, right associativity) : menu_scope.
Notation "c ;; k" := (bind c (fun _ => k))
  (at level 61, right associativity) : menu_scope.

Definition printf (text : string) : action unit :=
  fun w => Ok tt (World (stdin w) (stdout w ++ [text])).

(** The [int] variables that [scanf] is to set. *)
Inductive variable : Type := Choice | Num1 | Num2.

(** [scanf("%d", &variable)], whose result the program never tests: the
    next integer of the input is stored, brought into the range of
    [int] by wrap-around like the results of the arithmetic; at the end
    of the input nothing is stored and the variable keeps its content
    ([None]: never set). *)
Definition scanf (content : option Z) : action (option Z) :=
  fun w =>
    match stdin w with
    | [] => Ok content w
    | z :: rest => Ok (Some (Int32.wrap z)) (World rest (stdout w))
    end.

(** [%d] *)
Definition decimal (z : Z) : string := NilZero.string_of_int (Z.to_int z).

Definition line (text : string) : string := (text ++ Calculator.newline)%string.

Definition welcome : string := line "Welcome to Simple Calculator!".
Definition prompt : string := "Enter your choice (1-5): ".
Definition goodbye : string := line "Exiting calculator. Goodbye!".
Definition invalid_choice : string := line "Invalid choice! Please try again.".
Definition first_number : string := "Enter first number: ".
Definition second_number : string := "Enter second number: ".

Definition menu : list string :=
  [ (Calculator.newline ++ line "=== Simple Calculator ===")%string;
    line "1. Add";
    line "2. Subtract";
    line "3. Multiply";
    line "4. Divide";
    line "5. Exit";
    line "========================" ].

(** ["Result: %d <symbol> %d = <value>\n"] *)
Definition result_line (symbol : string) (a b : Z) (value : string) : string :=
  line ("Result: " ++ decimal a ++ " " ++ symbol ++ " " ++ decimal b
        ++ " = " ++ value)%string.

Local Open Scope menu_scope.

Definition print_menu : action unit :=
  printf (Calculator.newline ++ line "=== Simple Calculator ===")%string ;;
  printf (line "1. Add") ;;
  printf (line "2. Subtract") ;;
  printf (line "3. Multiply") ;;
  printf (line "4. Divide") ;;
  printf (line "5. Exit") ;;
  printf (line "========================").

Section Main.

Variable float : Type.
Variable float_of_int : Z -> float.
Variable float_quotient : float -> float -> float.
Variable float_zero : float.
(** [%.2f] *)
Variable two_decimals : float -> string.

(** What a variable that no [scanf] has set holds when it is read: some
    [int] that the program does not determine; it may depend on the
    variable and on all that happened before. *)
Variable unset : variable -> world -> Z.

(** Reading a variable: the program goes on with the value it finds. *)
Definition read (x : variable) (content : option Z) : action Z :=
  fun w =>
    match content with
    | Some z => Ok z w
    | None => Ok (Int32.wrap (unset x w)) w
    end.

(** [choice] is a local variable of [get_operation], unset at each
    call. *)
Definition get_operation : action Z :=
  printf prompt ;;
  choice <- scanf None ;;
  read Choice choice.

(** The call [divide(num1, num2)]: what it prints goes to the output. *)
Definition call_divide (a b : Z) : action float :=
  fun w =>
    match Calculator.divide float float_of_int float_quotient float_zero a b with
    | Calculator.Returns q printed => Ok q (World (stdin w) (stdout w ++ printed))
    | Calculator.DivisionByZero => DivisionByZero w
    end.

(** The [switch]; the arguments of [printf] are evaluated before it
    prints. *)
Definition perform (choice : Z) (num1 num2 : option Z) : action unit :=
  if choice =? 1 then
    a <- read Num1 num1 ;; b <- read Num2 num2 ;;
    printf (result_line "+" a b (decimal (add a b)))
  else if choice =? 2 then
    a <- read Num1 num1 ;; b <- read Num2 num2 ;;
    printf (result_line "-" a b (decimal (subtract a b)))
  else if choice =? 3 then
    a <- read Num1 num1 ;; b <- read Num2 num2 ;;
    printf (result_line "*" a b (decimal (multiply a b)))
  else if choice =? 4 then
    a <- read Num1 num1 ;; b <- read Num2 num2 ;;
    q <- call_divide a b ;;
    printf (result_line "/" a b (two_decimals q))
  else ret tt.

(** The [while (1)] loop of [main], with the contents of [num1] and
    [num2], which live across the iterations; one unit of fuel pays
    for one iteration. [break] leads to [return 0]. *)
Fixpoint main_loop (fuel : nat) (num1 num2 : option Z) : action Z :=
  match fuel with
  | O => fun w => Running w
  | S fuel' =>
      print_menu ;;
      choice <- get_operation ;;
      if choice =? 5 then
        printf goodbye ;;
        ret 0
      else if (choice <? 1) || (choice >? 5) then
        printf invalid_choice ;;
        main_loop fuel' num1 num2
      else
        printf first_number ;;
        num1 <- scanf num1 ;;
        printf second_number ;;
        num2 <- scanf num2 ;;
        perform choice num1 num2 ;;
        main_loop fuel' num1 num2
  end.

(** [main], followed for [fuel] iterations of its loop. *)
Definition main (fuel : nat) : action Z :=
  printf welcome ;;
  main_loop fuel None None.

End Main.

End Menu.

(** ** Reference definitions *)

(** The product [1 * 2 * ... * k] in [Z], to compare [factorial] with. *)
Fixpoint product_upto (k : nat) : Z :=
  match k with
  | O => 1
  | S k' => Z.of_nat k * product_upto k'
  end.

(** Primality as the specification states it: no integer of [2, n-1]
    divides [n]. *)
Definition no_divisor (n : Z) : Prop :=
  forall d, 2 <= d <= n - 1 -> ~ (d | n).

(** The [count] integers [d], [d + step], [d + 2 * step], ... *)
Fixpoint progression (count : nat) (d step : Z) : list Z :=
  match count with
  | O => []
  | S count' => d :: progression count' (d + step) step
  end.

(** The brute-force test the specification cross-checks against: trial
    division by every integer from 2 to [n - 1]. *)
Definition trial_division (n : Z) : bool :=
  forallb (fun d => negb (Z.rem n d =? 0))
          (progression (Z.to_nat (n - 2)) 2 1).

(** The odd integers 3, 5, 7, ... up to and including [floor (sqrt n)]. *)
Definition odd_candidates (n : Z) : list Z :=
  progression (Z.to_nat ((Z.sqrt n - 1) / 2)) 3 2.

(** Trial division of an odd [n > 2] as the specification words it:
    false (0) on the first candidate that divides [n], true (1) when
    none does. *)
Definition odd_trial_division (n : Z) : Z :=
  if existsb (fun d => Z.rem n d =? 0) (odd_candidates n) then 0 else 1.

(** A session at the calculator, to state what [main] prints: each
    command is an operation with its two operands or a mistyped choice;
    the session ends with the choice 5. *)
Module Session.

Inductive operation : Type := Add | Subtract | Multiply | Divide.

Inductive command : Type :=
| Operate (op : operation) (a b : Z)
| Mistype (choice : Z).

Definition choice_of (op : operation) : Z :=
  match op with
  | Add => 1
  | Subtract => 2
  | Multiply => 3
  | Divide => 4
  end.

(** What the user types for a command. *)
Definition keys (c : command) : list Z :=
  match c with
  | Operate op a b => [choice_of op; a; b]
  | Mistype choice => [choice]
  end.

(** The integers typed are of type [int], and a mistyped choice is
    outside 1..5. *)
Definition well_formed (c : command) : Prop :=
  match c with
  | Operate _ a b => Int32.in_range a /\ Int32.in_range b
  | Mistype choice => Int32.in_range choice /\ (choice < 1 \/ 5 < choice)
  end.

Section Transcript.

Variable float : Type.
Variable float_of_int : Z -> float.
Variable float_quotient : float -> float -> float.
Variable float_zero : float.
Variable two_decimals : float -> string.

(** What is printed once both operands are read. *)
Definition answer (op : operation) (a b : Z) : list string :=
  match op with
  | Add => [Menu.result_line "+" a b (Menu.decimal (Int32.wrap (a + b)))]
  | Subtract => [Menu.result_line "-" a b (Menu.decimal (Int32.wrap (a - b)))]
  | Multiply => [Menu.result_line "*" a b (Menu.decimal (Int32.wrap (a * b)))]
  | Divide =>
      if b =? 0 then
        [Calculator.error_message;
         Menu.result_line "/" a b (two_decimals float_zero)]
      else
        [Menu.result_line "/" a b
           (two_decimals (float_quotient (float_of_int a) (float_of_int b)))]
  end.

(** What is printed for a command, from the menu on. *)
Definition transcript (c : command) : list string :=
  Menu.menu ++ [Menu.prompt] ++
  match c with
  | Operate op a b => [Menu.first_number; Menu.second_number] ++ answer op a b
  | Mistype _ => [Menu.invalid_choice]
  end.

End Transcript.

End Session.

(** [holds c w Q R]: run from [w], the action [c] returns a value and a
    world that satisfy [Q], or is still running in a world that
    satisfies [R]; it does not divide by zero. *)
Definition holds {A : Type} (c : Menu.action A) (w : Menu.world)
  (Q : A -> Menu.world -> Prop) (R : Menu.world -> Prop) : Prop :=
  match c w with
  | Menu.Ok a w' => Q a w'
  | Menu.Running w' => R w'
  | Menu.DivisionByZero _ => False
  end.

(** ** Sample runs *)

Example factorial_5 : factorial 5 = 120.
Proof. reflexivity. Qed.

Example factorial_13_wraps : factorial 13 = 1932053504.
Proof. vm_compute. reflexivity. Qed.

Example is_prime_17 : is_prime 17 = Some 1.
Proof. reflexivity. Qed.

Example is_prime_18 : is_prime 18 = Some 0.
Proof. reflexivity. Qed.

Example is_prime_49 : is_prime 49 = Some 0.
Proof. reflexivity. Qed.

Example is_prime_7919 : is_prime 7919 = Some 1.
Proof. vm_compute. reflexivity. Qed.

Example power_2_10 : power 2 10 = Some 1024.
Proof. reflexivity. Qed.

Example power_3_3 : power 3 3 = Some 27.
Proof. reflexivity. Qed.

Example power_2_31_wraps : power 2 31 = Some (-2147483648).
Proof. vm_compute. reflexivity. Qed.

(** Bounds between constants and variables of type [int]. *)
Ltac range :=
  unfold Int32.in_range, Int32.int_min, Int32.int_max in *; simpl; lia.

(** ** Facts about [factorial] *)

Lemma factorial_step n :
  factorial n = if n <=? 1 then 1 else Int32.mul n (factorial (Int32.sub n 1)).
Proof.
  rewrite factorial_equation_1.
  destruct (Z_le_gt_dec n 1) as [Hle | Hgt].
  - destruct (Z.leb_spec n 1); [reflexivity | lia].
  - rewrite factorial_clause_1_equation_2.
    destruct (Z.leb_spec n 1); [lia | reflexivity].
Qed.

Lemma factorial_base n : n <= 1 -> factorial n = 1.
Proof.
  intros Hn. rewrite factorial_step.
  destruct (Z.leb_spec n 1); [reflexivity | lia].
Qed.

Lemma factorial_in_range n : Int32.in_range (factorial n).
Proof.
  rewrite factorial_step. destruct (n <=? 1).
  - range.
  - apply Int32.wrap_in_range.
Qed.

(** Up to 12 the product fits an [int] and [factorial] is the
    mathematical factorial; [factorial 13] already wraps around. *)
Theorem factorial_exact n :
  0 <= n <= 12 -> factorial n = product_upto (Z.to_nat n).
Proof.
  intros Hn.
  assert (Hcases : exists k, (k <= 12)%nat /\ n = Z.of_nat k).
  { exists (Z.to_nat n). lia. }
  destruct Hcases as (k & Hk & ->).
  do 13 (destruct k as [| k]; [vm_compute; reflexivity |]). lia.
Qed.

Lemma factorial_exact_witness : factorial 5 = product_upto (Z.to_nat 5).
Proof. apply (factorial_exact 5). lia. Defined.

(** C3: [factorial] is 1 for every [n <= 1]; for every [int] [n >= 1]
    it satisfies [factorial(n) == n * factorial(n-1)], the product being
    the one of the type [int]; [factorial(0) == 1], [factorial(1) == 1]
    and [factorial(5) == 120]. *)
Theorem factorial_spec :
  (forall n, n <= 1 -> factorial n = 1) /\
  (forall n, Int32.in_range n -> 1 <= n ->
     factorial n = Int32.mul n (factorial (n - 1))) /\
  factorial 0 = 1 /\ factorial 1 = 1 /\ factorial 5 = 120.
Proof.
  split; [exact factorial_base |].
  split; [| repeat split; reflexivity].
  intros n Hr Hn. rewrite factorial_step.
  destruct (Z.leb_spec n 1) as [Hle | Hgt].
  - assert (n = 1) as -> by lia. reflexivity.
  - unfold Int32.sub. rewrite Int32.wrap_small; [reflexivity |].
    unfold Int32.in_range, Int32.int_min, Int32.int_max in *. lia.
Qed.

(** ** Facts about [power] *)

(** The loop invariant: with [k] iterations left, the loop multiplies
    the accumulator by [base ^ k] in the arithmetic of [int]. *)
Lemma power_loop_spec base exponent :
  Int32.in_range exponent ->
  forall (k fuel : nat) i result,
    exponent - i = Z.of_nat k -> 0 <= i -> (k < fuel)%nat ->
    Int32.in_range result ->
    power_loop fuel base exponent i result
    = Some (Int32.wrap (result * base ^ Z.of_nat k)).
Proof.
  intros He. induction k as [| k IH]; intros fuel i result Hk Hi Hfuel Hres.
  - destruct fuel as [| fuel]; [lia |]. cbn [power_loop].
    destruct (Z.ltb_spec i exponent); [lia |].
    change (Z.of_nat 0) with 0. rewrite Z.pow_0_r, Z.mul_1_r.
    now rewrite Int32.wrap_small.
  - destruct fuel as [| fuel]; [lia |]. cbn [power_loop].
    destruct (Z.ltb_spec i exponent); [| lia].
    assert (Hi1 : Int32.add i 1 = i + 1).
    { unfold Int32.add. apply Int32.wrap_small.
      unfold Int32.in_range, Int32.int_min, Int32.int_max in *. lia. }
    rewrite Hi1, IH; try lia; [| apply Int32.wrap_in_range].
    unfold Int32.mul. rewrite Int32.wrap_mul_l.
    rewrite Nat2Z.inj_succ, Z.pow_succ_r by lia.
    do 2 f_equal. ring.
Qed.

Lemma power_nonneg base exponent :
  Int32.in_range exponent -> 0 <= exponent ->
  power base exponent = Some (Int32.wrap (base ^ exponent)).
Proof.
  intros He Hpos. unfold power.
  rewrite (power_loop_spec base exponent He (Z.to_nat exponent)); try lia.
  - rewrite Z2Nat.id, Z.mul_1_l by lia. reflexivity.
  - unfold Int32.in_range, Int32.int_min, Int32.int_max. lia.
Qed.

Lemma power_nonpos base exponent :
  exponent <= 0 -> power base exponent = Some 1.
Proof.
  intros He. unfold power.
  replace (Z.to_nat exponent) with 0%nat by lia. cbn [power_loop].
  destruct (Z.ltb_spec 0 exponent); [lia | reflexivity].
Qed.

(** C4: when [exponent >= 0] and [base ^ exponent] is an [int],
    [power] returns it. *)
Theorem power_correct base exponent :
  Int32.in_range exponent -> 0 <= exponent ->
  Int32.in_range (base ^ exponent) ->
  power base exponent = Some (base ^ exponent).
Proof.
  intros He Hpos Hres.
  rewrite power_nonneg, Int32.wrap_small by assumption. reflexivity.
Qed.

Lemma power_correct_witness :
  power 2 10 = Some 1024 /\ power 3 3 = Some 27.
Proof.
  split.
  - apply (power_correct 2 10); range.
  - apply (power_correct 3 3); range.
Defined.

(** C5: for an exponent that is zero or negative the loop body never
    runs and the accumulator 1 is returned. *)
Theorem power_nonpositive_exponent base exponent :
  exponent <= 0 -> power base exponent = Some 1.
Proof.
  intros He. unfold power.
  assert (Hfuel : Z.to_nat exponent = 0%nat) by lia.
  rewrite Hfuel. cbn [power_loop].
  destruct (Z.ltb_spec 0 exponent) as [Hlt | Hge].
  - lia.
  - reflexivity.
Qed.

Lemma power_nonpositive_exponent_witness :
  power 2 0 = Some 1 /\ power 7 (-3) = Some 1.
Proof.
  split.
  - apply (power_nonpositive_exponent 2 0). lia.
  - apply (power_nonpositive_exponent 7 (-3)). lia.
Defined.

(** C10: [power(base, 1) == base] for every [int] [base], and
    [power(1, exponent) == 1] for every [int] [exponent]. *)
Theorem power_identities :
  (forall base, Int32.in_range base -> power base 1 = Some base) /\
  (forall exponent, Int32.in_range exponent -> power 1 exponent = Some 1).
Proof.
  split.
  - intros base Hb. rewrite power_nonneg by range.
    rewrite Z.pow_1_r. now rewrite Int32.wrap_small.
  - intros exponent He. destruct (Z_le_gt_dec exponent 0) as [Hle | Hgt].
    + now apply power_nonpos.
    + rewrite power_nonneg by (assumption || lia).
      rewrite Z.pow_1_l by lia. reflexivity.
Qed.

(** ** Facts about [is_prime] *)

Lemma rem_defined n i :
  i <> 0 -> Int32.int_min < n -> Int32.rem n i = Some (Z.rem n i).
Proof.
  intros Hi Hn. unfold Int32.rem.
  destruct (Z.eqb_spec i 0); [contradiction |].
  destruct (Z.eqb_spec n Int32.int_min); [lia | reflexivity].
Qed.

Lemma rem_zero_divide n d : 0 < d -> (Z.rem n d = 0 <-> (d | n)).
Proof. intros Hd. apply Z.rem_divide. lia. Qed.

Lemma odd_rem n : 0 <= n -> Z.rem n 2 <> 0 -> exists e, n = 2 * e + 1.
Proof.
  intros Hn Hr. rewrite Z.rem_mod_nonneg in Hr by lia.
  exists (n / 2). pose proof (Z.div_mod n 2). pose proof (Z.mod_pos_bound n 2).
  lia.
Qed.

(** Past the three early returns [is_prime] is its loop. *)
Lemma is_prime_odd n :
  3 <= n -> Z.rem n 2 <> 0 ->
  is_prime n = is_prime_loop (Z.to_nat n) n 3.
Proof.
  intros Hn Hodd. unfold is_prime.
  destruct (Z.leb_spec n 1); [lia |].
  destruct (Z.eqb_spec n 2); [lia |].
  rewrite rem_defined by range. cbn [bind].
  destruct (Z.eqb_spec (Z.rem n 2) 0); [contradiction | reflexivity].
Qed.

(** The loop returns: [i] runs through the odd numbers from 3 on and
    cannot pass [n], where the remainder is zero, so [i += 2] never
    overflows and no division is undefined. *)
Lemma is_prime_loop_returns n :
  Int32.in_range n ->
  forall (k fuel : nat) i,
    3 <= i -> n = i + 2 * Z.of_nat k -> (k < fuel)%nat ->
    exists v, is_prime_loop fuel n i = Some v /\ (v = 0 \/ v = 1).
Proof.
  intros Hn. induction k as [| k IH]; intros fuel i Hi Hk Hfuel;
    (destruct fuel as [| fuel]; [lia |]); cbn [is_prime_loop];
    (destruct (Int32.mul i i <=? n); [| exists 1; auto]);
    rewrite rem_defined by range; cbn [bind].
  - replace i with n by lia. rewrite Z.rem_same by lia.
    exists 0. auto.
  - destruct (Z.rem n i =? 0); [exists 0; auto |].
    replace (Int32.add i 2) with (i + 2).
    + apply IH; lia.
    + unfold Int32.add. rewrite Int32.wrap_small; [reflexivity | range].
Qed.

Lemma is_prime_returns n :
  Int32.in_range n -> exists v, is_prime n = Some v /\ (v = 0 \/ v = 1).
Proof.
  intros Hn. unfold is_prime.
  destruct (Z.leb_spec n 1); [exists 0; auto |].
  destruct (Z.eqb_spec n 2); [exists 1; auto |].
  rewrite rem_defined by range. cbn [bind].
  destruct (Z.eqb_spec (Z.rem n 2) 0) as [| Hodd]; [exists 0; auto |].
  destruct (odd_rem n ltac:(lia) Hodd) as [e He].
  apply (is_prime_loop_returns n Hn (Z.to_nat (e - 1))); lia.
Qed.

(** C6: [is_prime] is false for every [n <= 1], true for 2 and false
    for every even [n > 2]; [is_prime(17)] is true and [is_prime(18)]
    false. *)
Theorem is_prime_early_returns :
  (forall n, n <= 1 -> is_prime n = Some 0) /\
  is_prime 2 = Some 1 /\
  (forall n, 2 < n -> Z.even n = true -> is_prime n = Some 0) /\
  is_prime 17 = Some 1 /\ is_prime 18 = Some 0.
Proof.
  split; [| split; [reflexivity | split; [| split; reflexivity]]].
  - intros n Hn. unfold is_prime.
    destruct (Z.leb_spec n 1); [reflexivity | lia].
  - intros n Hn Heven. unfold is_prime.
    destruct (Z.leb_spec n 1); [lia |].
    destruct (Z.eqb_spec n 2); [lia |].
    rewrite rem_defined by range. cbn [bind].
    rewrite Z.rem_mod_nonneg, Zmod_even, Heven by lia. reflexivity.
Qed.

(** *** The overflow of [i * i] *)

(** A divisor of [n] between 2 and [n - 1] comes with a cofactor, and
    the smaller of the two is at most [b] when [n < (b + 1)²]. *)
Lemma small_divisor n b d :
  0 < b -> n < (b + 1) * (b + 1) -> 2 <= d <= n - 1 -> (d | n) ->
  exists j, 2 <= j <= b /\ j * j <= n /\ (j | n).
Proof.
  intros Hb Hn Hd [q Hq].
  assert (Hq2 : 2 <= q) by nia.
  destruct (Z_le_gt_dec d q) as [Hle | Hgt].
  - exists d. repeat split; try nia. exists q. exact Hq.
  - exists q. repeat split; try nia. exists d. lia.
Qed.

Lemma odd_divisor n j : (j | n) -> Z.rem n 2 <> 0 -> 0 <= n -> exists e, j = 2 * e + 1.
Proof.
  intros [q Hq] Hodd Hn. destruct (odd_rem n Hn Hodd) as [e He].
  exists (j / 2). pose proof (Z.div_mod j 2). pose proof (Z.mod_pos_bound j 2).
  assert (Hcases : j mod 2 = 0 \/ j mod 2 = 1) by lia.
  destruct Hcases as [Heven | Hodd']; [| lia].
  exfalso. assert (j = 2 * (j / 2)) by lia.
  assert (n = 2 * (q * (j / 2))) by nia. lia.
Qed.

Lemma in_progression count step m : forall d,
  (m < count)%nat -> In (d + Z.of_nat m * step) (progression count d step).
Proof.
  revert m. induction count as [| count IH]; intros m d Hm; [lia |].
  destruct m as [| m]; cbn [progression].
  - left. cbn. lia.
  - right. replace (d + Z.of_nat (S m) * step)
      with ((d + step) + Z.of_nat m * step) by lia.
    apply IH. lia.
Qed.

Lemma progression_in count step x : forall d,
  In x (progression count d step) ->
  exists m, (m < count)%nat /\ x = d + Z.of_nat m * step.
Proof.
  induction count as [| count IH]; intros d Hin; [contradiction |].
  destruct Hin as [<- | Hin].
  - exists 0%nat. split; [lia | cbn; lia].
  - destruct (IH _ Hin) as (m & Hm & ->).
    exists (S m). split; lia.
Qed.

Lemma odd_candidates_spec n m :
  (m < Z.to_nat ((Z.sqrt n - 1) / 2))%nat ->
  odd_trial_division n = 1 -> Z.rem n (3 + 2 * Z.of_nat m) <> 0.
Proof.
  intros Hm. unfold odd_trial_division.
  destruct (existsb _ _) eqn:Hex; [discriminate |]. intros _ Hr.
  assert (Hin : existsb (fun d => Z.rem n d =? 0) (odd_candidates n) = true).
  { apply existsb_exists. exists (3 + 2 * Z.of_nat m). split.
    - unfold odd_candidates. rewrite (Z.mul_comm 2).
      now apply in_progression.
    - now apply Z.eqb_eq. }
  congruence.
Qed.

(** 2147483647, the largest [int], is a prime number. *)
Lemma odd_trial_division_int_max : odd_trial_division 2147483647 = 1.
Proof. vm_compute. reflexivity. Qed.

Lemma int_max_prime : no_divisor 2147483647.
Proof.
  intros d Hd Hdiv.
  destruct (small_divisor 2147483647 46340 d) as (j & Hj & _ & Hjn);
    try assumption; try lia.
  destruct (odd_divisor _ j Hjn) as [e He]; [vm_compute; discriminate | lia |].
  apply (odd_candidates_spec 2147483647 (Z.to_nat (e - 1))).
  - replace ((Z.sqrt 2147483647 - 1) / 2) with 23169 by (vm_compute; reflexivity).
    lia.
  - exact odd_trial_division_int_max.
  - apply rem_zero_divide; [lia |].
    replace (3 + 2 * Z.of_nat (Z.to_nat (e - 1))) with j by lia. exact Hjn.
Qed.

(** When [n] is the largest [int], [i * i <= n] holds whatever [i * i]
    wrapped around to, so the loop only ends at a divisor. *)
Lemma is_prime_loop_no_exit n :
  n = Int32.int_max ->
  forall (k fuel : nat) i,
    3 <= i -> n = i + 2 * Z.of_nat k -> (k < fuel)%nat ->
    (forall j, i <= j <= n - 1 -> ~ (j | n)) ->
    is_prime_loop fuel n i = Some 0.
Proof.
  intros Hn. induction k as [| k IH]; intros fuel i Hi Hk Hfuel Hnd;
    (destruct fuel as [| fuel]; [lia |]); cbn [is_prime_loop].
  all: pose proof (Int32.wrap_in_range (i * i)) as [_ Hsq].
  all: unfold Int32.mul; destruct (Z.leb_spec (Int32.wrap (i * i)) n); [| lia].
  all: rewrite rem_defined by range; cbn [bind].
  - replace i with n by lia. rewrite Z.rem_same by range. reflexivity.
  - destruct (Z.eqb_spec (Z.rem n i) 0) as [Hz | Hnz]; [reflexivity |].
    replace (Int32.add i 2) with (i + 2).
    + apply IH; try lia. intros j Hj. apply Hnd. lia.
    + unfold Int32.add. rewrite Int32.wrap_small; [reflexivity | range].
Qed.

Lemma is_prime_at_int_max n : n = 2147483647 -> is_prime n = Some 0.
Proof.
  intros Hn. rewrite is_prime_odd; [| lia | subst n; vm_compute; discriminate].
  apply (is_prime_loop_no_exit n) with (k := Z.to_nat 1073741822).
  - subst n. reflexivity.
  - lia.
  - rewrite Z2Nat.id by lia. subst n. reflexivity.
  - lia.
  - intros j Hj. subst n. apply int_max_prime. lia.
Qed.

(** C1: the largest [int], 2147483647, has no divisor in [2, n-1], and
    brute-force trial division accepts it, yet [is_prime] returns false
    for it: at [i = 46341] the product [i * i] no longer fits an [int]. *)
Theorem is_prime_rejects_prime_int_max :
  is_prime 2147483647 = Some 0 /\ no_divisor 2147483647.
Proof.
  split; [now apply is_prime_at_int_max | exact int_max_prime].
Qed.

(** C2: 2147483647 is odd and none of the odd integers from 3 up to
    [floor (sqrt n)] = 46340 divides it, yet [is_prime] returns false:
    the loop runs past the square root. *)
Theorem is_prime_passes_square_root :
  Z.odd 2147483647 = true /\
  Z.sqrt 2147483647 = 46340 /\
  odd_trial_division 2147483647 = 1 /\
  is_prime 2147483647 = Some 0.
Proof.
  split; [reflexivity |]. split; [reflexivity |].
  split; [exact odd_trial_division_int_max | now apply is_prime_at_int_max].
Qed.

(** *** Where [i * i] does not overflow *)

(** A divisor [j] with [j * j <= n] is reached before any product
    overflows, for every [int] [n]. *)
Lemma is_prime_loop_finds n j :
  Int32.in_range n -> j * j <= n -> (j | n) ->
  forall (k fuel : nat) i,
    3 <= i -> j = i + 2 * Z.of_nat k -> (k < fuel)%nat ->
    is_prime_loop fuel n i = Some 0.
Proof.
  intros Hn Hjj Hdiv. induction k as [| k IH]; intros fuel i Hi Hk Hfuel;
    (destruct fuel as [| fuel]; [lia |]); cbn [is_prime_loop].
  all: assert (Hsq : Int32.mul i i = i * i)
    by (unfold Int32.mul; apply Int32.wrap_small;
        unfold Int32.in_range, Int32.int_min, Int32.int_max in *; nia).
  all: rewrite Hsq; destruct (Z.leb_spec (i * i) n); [| nia].
  all: rewrite rem_defined by (try range; nia); cbn [bind].
  - replace i with j by lia.
    destruct (Z.eqb_spec (Z.rem n j) 0) as [| Hnz]; [reflexivity |].
    exfalso. apply Hnz. apply rem_zero_divide; [lia | assumption].
  - destruct (Z.eqb_spec (Z.rem n i) 0); [reflexivity |].
    replace (Int32.add i 2) with (i + 2).
    + apply IH; lia.
    + unfold Int32.add. rewrite Int32.wrap_small; [reflexivity |].
      unfold Int32.in_range, Int32.int_min, Int32.int_max in *. nia.
Qed.

(** Below 46339² = 2147302921 the loop leaves through [i * i > n] when
    no candidate divides [n]. *)
Lemma is_prime_loop_exits n :
  Int32.in_range n -> n < 2147302921 ->
  forall (k fuel : nat) i,
    3 <= i <= 46339 -> (exists e, i = 2 * e + 1) ->
    n = i + 2 * Z.of_nat k -> (k < fuel)%nat ->
    (forall m, 0 <= m -> (i + 2 * m) * (i + 2 * m) <= n -> ~ (i + 2 * m | n)) ->
    is_prime_loop fuel n i = Some 1.
Proof.
  intros Hn Hbound. induction k as [| k IH];
    intros fuel i Hi [e He] Hk Hfuel Hnd;
    (destruct fuel as [| fuel]; [lia |]); cbn [is_prime_loop].
  all: assert (Hsq : Int32.mul i i = i * i)
    by (unfold Int32.mul; apply Int32.wrap_small;
        unfold Int32.in_range, Int32.int_min, Int32.int_max in *; nia).
  all: rewrite Hsq; destruct (Z.leb_spec (i * i) n) as [Hle | Hgt];
    [| reflexivity].
  - nia.
  - rewrite rem_defined by range; cbn [bind].
    destruct (Z.eqb_spec (Z.rem n i) 0) as [Hz | Hnz].
    + exfalso. apply (Hnd 0); [lia | | ].
      * replace (i + 2 * 0) with i by lia. exact Hle.
      * replace (i + 2 * 0) with i by lia.
        apply rem_zero_divide; [lia | exact Hz].
    + assert (Hlt : i < 46339).
      { destruct (Z_lt_ge_dec i 46339) as [Hlt | Hge]; [exact Hlt |].
        assert (46339 * 46339 <= i * i) by (apply Z.mul_le_mono_nonneg; lia).
        lia. }
      assert (Hin : i < n).
      { assert (3 * i <= i * i) by (apply Z.mul_le_mono_nonneg_r; lia). lia. }
      replace (Int32.add i 2) with (i + 2).
      * apply IH; try lia.
        -- exists (e + 1). lia.
        -- intros m Hm Hmm.
           replace (i + 2 + 2 * m) with (i + 2 * (m + 1)) in * by lia.
           apply Hnd; [lia | exact Hmm].
      * unfold Int32.add. rewrite Int32.wrap_small; [reflexivity | range].
Qed.

(** [is_prime] never takes a number with a proper divisor for a prime. *)
Lemma is_prime_composite n d :
  Int32.in_range n -> 2 <= d <= n - 1 -> (d | n) -> is_prime n = Some 0.
Proof.
  intros Hn Hd Hdiv.
  destruct (Z.eq_dec (Z.rem n 2) 0) as [Heven | Hodd].
  - unfold is_prime.
    destruct (Z.leb_spec n 1); [reflexivity |].
    destruct (Z.eqb_spec n 2); [lia |].
    rewrite rem_defined by range. cbn [bind]. now rewrite Heven.
  - destruct (small_divisor n 46340 d) as (j & Hj & Hjj & Hjn);
      try assumption; [lia | range |].
    destruct (odd_divisor n j Hjn Hodd) as [e He]; [lia |].
    rewrite is_prime_odd by (assumption || lia).
    apply (is_prime_loop_finds n j Hn Hjj Hjn (Z.to_nat (e - 1))); lia.
Qed.

(** For every [int], an answer "true" of [is_prime] is right. *)
Theorem is_prime_true_is_prime n :
  Int32.in_range n -> is_prime n = Some 1 -> 2 <= n /\ no_divisor n.
Proof.
  intros Hn Hp. split.
  - destruct (Z_le_gt_dec n 1) as [Hle | Hgt]; [| lia].
    unfold is_prime in Hp. destruct (Z.leb_spec n 1); [discriminate | lia].
  - intros d Hd Hdiv.
    rewrite (is_prime_composite n d Hn Hd Hdiv) in Hp. discriminate.
Qed.

Lemma is_prime_true_is_prime_witness : 2 <= 17 /\ no_divisor 17.
Proof.
  apply (is_prime_true_is_prime 17); [range | reflexivity].
Defined.

Lemma is_prime_complete n :
  2 <= n < 2147302921 -> no_divisor n -> is_prime n = Some 1.
Proof.
  intros Hn Hnd.
  destruct (Z.eq_dec n 2) as [-> | Hn2]; [reflexivity |].
  assert (Hodd : Z.rem n 2 <> 0).
  { intros Hz. apply (Hnd 2); [lia |]. apply rem_zero_divide; [lia | exact Hz]. }
  rewrite is_prime_odd by (assumption || lia).
  destruct (odd_rem n ltac:(lia) Hodd) as [e He].
  apply (is_prime_loop_exits n) with (k := Z.to_nat (e - 1));
    try lia; [range | exists 1; lia |].
  intros m Hm Hmm. apply Hnd. nia.
Qed.

(** Brute-force trial division decides [no_divisor]. *)
Lemma trial_division_spec n : trial_division n = true <-> no_divisor n.
Proof.
  unfold trial_division, no_divisor. rewrite forallb_forall. split.
  - intros Hall d Hd Hdiv.
    assert (Hin : In d (progression (Z.to_nat (n - 2)) 2 1)).
    { replace d with (2 + Z.of_nat (Z.to_nat (d - 2)) * 1) by lia.
      apply in_progression. lia. }
    apply Hall in Hin. apply negb_true_iff, Z.eqb_neq in Hin.
    apply Hin. apply rem_zero_divide; [lia | exact Hdiv].
  - intros Hnd d Hin. apply progression_in in Hin as (m & Hm & ->).
    apply negb_true_iff, Z.eqb_neq. intros Hz.
    apply (Hnd (2 + Z.of_nat m * 1)); [lia |].
    apply rem_zero_divide; [lia | exact Hz].
Qed.

(** Below 2147302921 [is_prime] agrees with brute-force trial division
    by every integer of [2, n-1]. *)
Theorem is_prime_refines_trial_division n :
  2 <= n < 2147302921 ->
  is_prime n = Some (if trial_division n then 1 else 0).
Proof.
  intros Hn. destruct (trial_division n) eqn:Htd.
  - apply is_prime_complete; [exact Hn |]. now apply trial_division_spec.
  - destruct (is_prime_returns n) as (v & Hv & [-> | ->]); [range | exact Hv |].
    assert (Hnd : no_divisor n).
    { intros d Hd Hdiv.
      rewrite (is_prime_composite n d ltac:(range) Hd Hdiv) in Hv.
      discriminate. }
    apply trial_division_spec in Hnd. congruence.
Qed.

Lemma is_prime_refines_trial_division_witness :
  is_prime 97 = Some 1 /\ is_prime 91 = Some 0.
Proof.
  split.
  - apply (is_prime_refines_trial_division 97). lia.
  - apply (is_prime_refines_trial_division 91). lia.
Defined.

(** Below 2147302921 the loop is the trial division by the odd integers
    from 3 up to and including [floor (sqrt n)]. *)
Theorem is_prime_odd_trial_division n :
  2 < n < 2147302921 -> Z.odd n = true ->
  is_prime n = Some (odd_trial_division n).
Proof.
  intros Hn Hodd.
  assert (Hrem : Z.rem n 2 <> 0).
  { rewrite Z.rem_mod_nonneg, Zmod_odd, Hodd by lia. discriminate. }
  pose proof (Z.sqrt_spec n ltac:(lia)) as [Hlo Hhi].
  pose proof (Z.sqrt_nonneg n) as Hs.
  rewrite is_prime_odd by (assumption || lia).
  unfold odd_trial_division.
  destruct (existsb _ _) eqn:Hex.
  - apply existsb_exists in Hex as (d & Hin & Hd).
    apply progression_in in Hin as (m & Hm & ->).
    apply Z.eqb_eq, rem_zero_divide in Hd; [| lia].
    assert (Hle : 3 + Z.of_nat m * 2 <= Z.sqrt n).
    { pose proof (Z.div_mod (Z.sqrt n - 1) 2).
      pose proof (Z.mod_pos_bound (Z.sqrt n - 1) 2). lia. }
    assert (Hsq : (3 + Z.of_nat m * 2) * (3 + Z.of_nat m * 2) <= n) by nia.
    apply (is_prime_loop_finds n _ ltac:(range) Hsq Hd m); lia.
  - destruct (odd_rem n ltac:(lia) Hrem) as [e He].
    apply (is_prime_loop_exits n) with (k := Z.to_nat (e - 1));
      try lia; [range | exists 1; lia |].
    intros m Hm Hmm Hdiv.
    assert (Hle : 3 + 2 * m <= Z.sqrt n) by nia.
    assert (Hin : existsb (fun d => Z.rem n d =? 0) (odd_candidates n) = true).
    { apply existsb_exists. exists (3 + 2 * m). split.
      - replace (3 + 2 * m) with (3 + Z.of_nat (Z.to_nat m) * 2) by lia.
        apply in_progression.
        pose proof (Z.div_mod (Z.sqrt n - 1) 2).
        pose proof (Z.mod_pos_bound (Z.sqrt n - 1) 2). lia.
      - apply Z.eqb_eq, rem_zero_divide; [lia | exact Hdiv]. }
    congruence.
Qed.

Lemma is_prime_odd_trial_division_witness :
  is_prime 49 = Some 0 /\ is_prime 53 = Some 1.
Proof.
  split.
  - apply (is_prime_odd_trial_division 49); [lia | reflexivity].
  - apply (is_prime_odd_trial_division 53); [lia | reflexivity].
Defined.

(** ** Facts about [divide] *)

Section DivideFacts.

Variable float : Type.
Variable float_of_int : Z -> float.
Variable float_quotient : float -> float -> float.
Variable float_zero : float.

Local Abbreviation divide :=
  (Calculator.divide float float_of_int float_quotient float_zero).
Local Abbreviation float_div :=
  (Calculator.float_div float float_of_int float_quotient).

(** Without the test [b == 0] in front of it the division has no value
    at [b = 0]. *)
Lemma float_div_by_zero x : float_div x 0 = Calculator.DivisionByZero.
Proof. reflexivity. Qed.

(** C9: [divide(a, 0)] prints the error message and returns [0.0]
    without dividing; for [b != 0] it returns the quotient of [a] and
    [b] as floats and prints nothing; so no call divides by zero. *)
Theorem divide_guarded (a b : Z) :
  divide a 0 = Calculator.Returns float_zero [Calculator.error_message] /\
  (b <> 0 ->
   divide a b
   = Calculator.Returns (float_quotient (float_of_int a) (float_of_int b)) []) /\
  divide a b <> Calculator.DivisionByZero.
Proof.
  split; [reflexivity |].
  assert (Hnz : b <> 0 ->
    divide a b
    = Calculator.Returns (float_quotient (float_of_int a) (float_of_int b)) []).
  { intros Hb. unfold Calculator.divide, Calculator.float_div.
    destruct (Z.eqb_spec b 0); [contradiction | reflexivity]. }
  split; [exact Hnz |].
  destruct (Z.eq_dec b 0) as [-> | Hb].
  - discriminate.
  - rewrite (Hnz Hb). discriminate.
Qed.

End DivideFacts.

(** A run with the rationals standing for [float]. *)
Example divide_7_2 :
  Calculator.divide Q inject_Z Qdiv (0 # 1)%Q 7 2
  = Calculator.Returns (Qdiv (inject_Z 7) (inject_Z 2)) [].
Proof. reflexivity. Qed.

Example divide_7_0 :
  Calculator.divide Q inject_Z Qdiv (0 # 1)%Q 7 0
  = Calculator.Returns (0 # 1)%Q [Calculator.error_message].
Proof. reflexivity. Qed.

(** ** Overflow in [factorial] and [power] *)

Lemma wrap_mul_r a b : Int32.wrap (a * Int32.wrap b) = Int32.wrap (a * b).
Proof.
  rewrite (Z.mul_comm a (Int32.wrap b)), Int32.wrap_mul_l.
  now rewrite Z.mul_comm.
Qed.

Lemma factorial_of_nat (k : nat) :
  Int32.in_range (Z.of_nat k) ->
  factorial (Z.of_nat k) = Int32.wrap (product_upto k).
Proof.
  induction k as [| k IH]; intros Hk.
  - reflexivity.
  - rewrite factorial_step.
    destruct (Z.leb_spec (Z.of_nat (S k)) 1) as [Hle | Hgt].
    + assert (k = 0%nat) as -> by lia. reflexivity.
    + assert (Hk' : Int32.in_range (Z.of_nat k)).
      { unfold Int32.in_range, Int32.int_min, Int32.int_max in *. lia. }
      assert (Hsub : Int32.sub (Z.of_nat (S k)) 1 = Z.of_nat k).
      { unfold Int32.sub. replace (Z.of_nat (S k) - 1) with (Z.of_nat k) by lia.
        now apply Int32.wrap_small. }
      rewrite Hsub, IH by exact Hk'.
      unfold Int32.mul. rewrite wrap_mul_r. reflexivity.
Qed.

(** For every [int] [n >= 0], [factorial n] is the mathematical
    factorial of [n] wrapped into the range of [int]. *)
Theorem factorial_wraps n :
  0 <= n -> Int32.in_range n ->
  factorial n = Int32.wrap (product_upto (Z.to_nat n)).
Proof.
  intros Hpos Hn.
  rewrite <- (Z2Nat.id n Hpos) at 1.
  apply factorial_of_nat. now rewrite Z2Nat.id.
Qed.

Lemma factorial_wraps_witness :
  factorial 13 = Int32.wrap (product_upto (Z.to_nat 13)).
Proof. apply (factorial_wraps 13); range. Defined.

(** From 34 on the mathematical factorial is a multiple of 2^32, and
    [factorial] returns 0. *)
Theorem factorial_vanishes n :
  34 <= n -> Int32.in_range n -> factorial n = 0.
Proof.
  intros Hlo Hn.
  assert (Hk : exists k : nat, n = 34 + Z.of_nat k).
  { exists (Z.to_nat (n - 34)). lia. }
  destruct Hk as [k ->]. induction k as [| k IH].
  - vm_compute. reflexivity.
  - rewrite factorial_step.
    destruct (Z.leb_spec (34 + Z.of_nat (S k)) 1) as [Hle | Hgt]; [lia |].
    assert (Hk' : Int32.in_range (34 + Z.of_nat k)).
    { unfold Int32.in_range, Int32.int_min, Int32.int_max in *. lia. }
    assert (Hsub : Int32.sub (34 + Z.of_nat (S k)) 1 = 34 + Z.of_nat k).
    { unfold Int32.sub.
      replace (34 + Z.of_nat (S k) - 1) with (34 + Z.of_nat k) by lia.
      now apply Int32.wrap_small. }
    rewrite Hsub, (IH Hk' ltac:(lia)).
    unfold Int32.mul. rewrite Z.mul_0_r. reflexivity.
Qed.

Lemma factorial_vanishes_witness : factorial 40 = 0.
Proof. apply (factorial_vanishes 40); range. Defined.

(** For every [int] [exponent >= 0], [power] returns an [int] congruent
    to [base ^ exponent] modulo 2^32, whether or not the products on
    the way overflow. *)
Theorem power_modular base exponent :
  Int32.in_range exponent -> 0 <= exponent ->
  exists v, power base exponent = Some v /\ Int32.in_range v /\
            v mod Int32.modulus = (base ^ exponent) mod Int32.modulus.
Proof.
  intros He Hpos. exists (Int32.wrap (base ^ exponent)).
  split; [now apply power_nonneg |].
  split; [apply Int32.wrap_in_range | apply Int32.wrap_eqm].
Qed.

Lemma power_modular_witness :
  exists v, power 2 33 = Some v /\ Int32.in_range v /\
            v mod Int32.modulus = (2 ^ 33) mod Int32.modulus.
Proof. apply (power_modular 2 33); range. Defined.

(** Exponents add up: [power base (m + n)] is the [int] product of
    [power base m] and [power base n]. *)
Theorem power_add_exponents base m n :
  0 <= m -> 0 <= n -> Int32.in_range (m + n) ->
  power base (m + n)
  = (x <- power base m ;; y <- power base n ;; Some (Int32.mul x y)).
Proof.
  intros Hm Hn Hmn.
  rewrite !power_nonneg by (range || lia). cbn [bind].
  unfold Int32.mul. rewrite Int32.wrap_mul_l, wrap_mul_r.
  now rewrite Z.pow_add_r.
Qed.

Lemma power_add_exponents_witness :
  power 3 (2 + 5)
  = (x <- power 3 2 ;; y <- power 3 5 ;; Some (Int32.mul x y)).
Proof. apply (power_add_exponents 3 2 5); range. Defined.

(** ** Facts about [add], [subtract] and [multiply] *)

Lemma wrap_sub_l a b : Int32.wrap (Int32.wrap a - b) = Int32.wrap (a - b).
Proof.
  apply Int32.wrap_congr.
  rewrite <- (Zminus_mod_idemp_l (Int32.wrap a)), Int32.wrap_eqm.
  apply Zminus_mod_idemp_l.
Qed.

Lemma wrap_add_l a b : Int32.wrap (Int32.wrap a + b) = Int32.wrap (a + b).
Proof.
  apply Int32.wrap_congr.
  rewrite <- (Zplus_mod_idemp_l (Int32.wrap a)), Int32.wrap_eqm.
  apply Zplus_mod_idemp_l.
Qed.

Lemma wrap_add_r a b : Int32.wrap (a + Int32.wrap b) = Int32.wrap (a + b).
Proof.
  rewrite (Z.add_comm a (Int32.wrap b)), wrap_add_l.
  now rewrite Z.add_comm.
Qed.

(** Subtracting what was added gives the first operand back, and the
    other way round, also when the sum or the difference overflows. *)
Theorem add_subtract_inverse a b :
  Int32.in_range a ->
  Menu.subtract (Menu.add a b) b = a /\ Menu.add (Menu.subtract a b) b = a.
Proof.
  intros Ha. unfold Menu.subtract, Menu.add, Int32.sub, Int32.add. split.
  - rewrite wrap_sub_l. replace (a + b - b) with a by lia.
    now apply Int32.wrap_small.
  - rewrite wrap_add_l. replace (a - b + b) with a by lia.
    now apply Int32.wrap_small.
Qed.

Lemma add_subtract_inverse_witness :
  Menu.subtract (Menu.add 2147483647 1) 1 = 2147483647 /\
  Menu.add (Menu.subtract 2147483647 1) 1 = 2147483647.
Proof. apply (add_subtract_inverse 2147483647 1). range. Defined.

(** [multiply] distributes over [add], whatever overflows. *)
Theorem multiply_distributes a b c :
  Menu.multiply a (Menu.add b c)
  = Menu.add (Menu.multiply a b) (Menu.multiply a c).
Proof.
  unfold Menu.multiply, Menu.add, Int32.mul, Int32.add.
  rewrite wrap_mul_r, wrap_add_l, wrap_add_r. f_equal. ring.
Qed.

(** ** Facts about [is_prime]: every call returns *)



(** ** Facts about [main] *)

Lemma print_menu_run w :
  Menu.print_menu w
  = Menu.Ok tt (Menu.World (Menu.stdin w) (Menu.stdout w ++ Menu.menu)).
Proof.
  unfold Menu.print_menu, Menu.bind, Menu.printf, Menu.menu.
  cbn [Menu.stdin Menu.stdout]. repeat rewrite <- app_assoc. reflexivity.
Qed.

Lemma holds_bind {A B : Type} (c : Menu.action A) (k : A -> Menu.action B)
  w (Q : B -> Menu.world -> Prop) (R : Menu.world -> Prop) :
  holds c w (fun a w' => holds (k a) w' Q R) R -> holds (Menu.bind c k) w Q R.
Proof.
  unfold holds, Menu.bind. destruct (c w); auto.
Qed.

Lemma holds_printf text w (Q : unit -> Menu.world -> Prop) R :
  Q tt (Menu.World (Menu.stdin w) (Menu.stdout w ++ [text])) ->
  holds (Menu.printf text) w Q R.
Proof. intros HQ. exact HQ. Qed.

Lemma holds_scanf content w (Q : option Z -> Menu.world -> Prop) R :
  (Menu.stdin w = [] -> Q content w) ->
  (forall z rest, Menu.stdin w = z :: rest ->
     Q (Some (Int32.wrap z)) (Menu.World rest (Menu.stdout w))) ->
  holds (Menu.scanf content) w Q R.
Proof.
  intros Hend Hnext. unfold holds, Menu.scanf.
  destruct (Menu.stdin w) as [| z rest]; auto.
Qed.

Section MainFacts.

Variable float : Type.
Variable float_of_int : Z -> float.
Variable float_quotient : float -> float -> float.
Variable float_zero : float.
Variable two_decimals : float -> string.
Variable unset : Menu.variable -> Menu.world -> Z.

Local Abbreviation get_operation := (Menu.get_operation unset).
Local Abbreviation call_divide :=
  (Menu.call_divide float float_of_int float_quotient float_zero).
Local Abbreviation perform :=
  (Menu.perform float float_of_int float_quotient float_zero two_decimals unset).
Local Abbreviation main_loop :=
  (Menu.main_loop float float_of_int float_quotient float_zero two_decimals unset).
Local Abbreviation main :=
  (Menu.main float float_of_int float_quotient float_zero two_decimals unset).
Local Abbreviation answer :=
  (Session.answer float float_of_int float_quotient float_zero two_decimals).
Local Abbreviation transcript :=
  (Session.transcript float float_of_int float_quotient float_zero two_decimals).

Lemma get_operation_run z rest out :
  get_operation (Menu.World (z :: rest) out)
  = Menu.Ok (Int32.wrap z) (Menu.World rest (out ++ [Menu.prompt])).
Proof. reflexivity. Qed.

(** At the end of the input the choice is whatever the unset variable
    holds. *)
Lemma get_operation_end out :
  get_operation (Menu.World [] out)
  = Menu.Ok (Int32.wrap (unset Menu.Choice (Menu.World [] (out ++ [Menu.prompt]))))
      (Menu.World [] (out ++ [Menu.prompt])).
Proof. reflexivity. Qed.

(** The call of [divide] prints the error message for a zero divisor
    and nothing otherwise; it reads no input. *)
Lemma call_divide_run a b w :
  call_divide a b w
  = if b =? 0 then
      Menu.Ok float_zero
        (Menu.World (Menu.stdin w) (Menu.stdout w ++ [Calculator.error_message]))
    else
      Menu.Ok (float_quotient (float_of_int a) (float_of_int b))
        (Menu.World (Menu.stdin w) (Menu.stdout w ++ [])).
Proof.
  unfold Menu.call_divide, Calculator.divide, Calculator.float_div.
  destruct (b =? 0); reflexivity.
Qed.

(** With both operands set, the [switch] prints the answer. *)
Lemma perform_run op a b w :
  perform (Session.choice_of op) (Some a) (Some b) w
  = Menu.Ok tt (Menu.World (Menu.stdin w) (Menu.stdout w ++ answer op a b)).
Proof.
  destruct op; unfold Menu.perform; cbn [Session.choice_of Z.eqb Pos.eqb];
    unfold Menu.bind; cbn [Menu.read]; try reflexivity.
  rewrite call_divide_run. unfold Session.answer.
  destruct (b =? 0); unfold Menu.printf; cbn [Menu.stdin Menu.stdout];
    rewrite <- app_assoc; reflexivity.
Qed.

(** Whatever the choice and the operands, set or not, the [switch]
    comes to its end: it reads no input and does not divide by zero. *)
Lemma perform_holds choice num1 num2 w (R : Menu.world -> Prop) :
  holds (perform choice num1 num2) w
    (fun _ w' => Menu.stdin w' = Menu.stdin w) R.
Proof.
  assert (Hprint : forall text w0,
    holds (Menu.printf text) w0 (fun _ w' => Menu.stdin w' = Menu.stdin w0) R)
    by reflexivity.
  assert (Hoperands : forall (k : Z -> Z -> Menu.action unit),
    (forall a b w0, holds (k a b) w0
       (fun _ w' => Menu.stdin w' = Menu.stdin w0) R) ->
    holds (Menu.bind (Menu.read unset Menu.Num1 num1)
             (fun a => Menu.bind (Menu.read unset Menu.Num2 num2)
                         (fun b => k a b))) w
      (fun _ w' => Menu.stdin w' = Menu.stdin w) R).
  { intros k Hk. apply holds_bind. unfold holds at 1, Menu.read.
    destruct num1; apply holds_bind; unfold holds at 1;
      destruct num2; apply Hk. }
  unfold Menu.perform.
  destruct (choice =? 1); [apply Hoperands; intros; apply Hprint |].
  destruct (choice =? 2); [apply Hoperands; intros; apply Hprint |].
  destruct (choice =? 3); [apply Hoperands; intros; apply Hprint |].
  destruct (choice =? 4); [apply Hoperands | reflexivity].
  intros a b w0. unfold holds, Menu.bind. rewrite call_divide_run.
  destruct (b =? 0); reflexivity.
Qed.

Lemma holds_weaken {A : Type} (c : Menu.action A) w
  (Q Q' : A -> Menu.world -> Prop) (R : Menu.world -> Prop) :
  holds c w Q R -> (forall a w', Q a w' -> Q' a w') -> holds c w Q' R.
Proof.
  unfold holds. destruct (c w); auto.
Qed.

(** The part of an iteration after a valid choice: the operands are
    read, the operation is performed and the loop goes on, with an
    input that is a final part of the input before. *)
Lemma operation_holds choice num1 num2 w
  (k : option Z -> option Z -> Menu.action Z)
  (Q : Z -> Menu.world -> Prop) (R : Menu.world -> Prop) :
  (forall num1' num2' w',
     (exists read, Menu.stdin w = read ++ Menu.stdin w') ->
     holds (k num1' num2') w' Q R) ->
  holds
    (Menu.bind (Menu.printf Menu.first_number) (fun _ =>
     Menu.bind (Menu.scanf num1) (fun num1' =>
     Menu.bind (Menu.printf Menu.second_number) (fun _ =>
     Menu.bind (Menu.scanf num2) (fun num2' =>
     Menu.bind (perform choice num1' num2') (fun _ => k num1' num2'))))))
    w Q R.
Proof.
  intros Hk. destruct w as [input out].
  apply holds_bind, holds_printf, holds_bind.
  cbn [Menu.stdin Menu.stdout] in *.
  apply holds_scanf; cbn [Menu.stdin Menu.stdout].
  - intros ->. apply holds_bind, holds_printf, holds_bind.
    apply holds_scanf; cbn [Menu.stdin Menu.stdout]; [intros _ | discriminate].
    apply holds_bind.
    eapply holds_weaken; [apply perform_holds |].
    intros u w' Hw'. apply Hk. exists []. now rewrite Hw'.
  - intros a rest ->. apply holds_bind, holds_printf, holds_bind.
    apply holds_scanf; cbn [Menu.stdin Menu.stdout].
    + intros ->. apply holds_bind.
      eapply holds_weaken; [apply perform_holds |].
      intros u w' Hw'. apply Hk. exists [a]. now rewrite Hw'.
    + intros b rest' ->. apply holds_bind.
      eapply holds_weaken; [apply perform_holds |].
      intros u w' Hw'. apply Hk. exists [a; b]. now rewrite Hw'.
Qed.

(** The loop invariant for safety. *)
Lemma main_loop_safe (fuel : nat) : forall num1 num2 w,
  holds (main_loop fuel num1 num2) w
    (fun code w' => code = 0 /\ exists out, Menu.stdout w' = out ++ [Menu.goodbye])
    (fun _ => True).
Proof.
  induction fuel as [| fuel IH]; intros num1 num2 w; [exact I |].
  cbn [Menu.main_loop]. apply holds_bind.
  unfold holds at 1. rewrite print_menu_run.
  apply holds_bind.
  assert (Hchoice : exists choice w',
    get_operation (Menu.World (Menu.stdin w) (Menu.stdout w ++ Menu.menu))
    = Menu.Ok choice w').
  { destruct (Menu.stdin w) as [| z rest].
    - rewrite get_operation_end. eauto.
    - rewrite get_operation_run. eauto. }
  destruct Hchoice as (choice & w' & Hchoice).
  unfold holds at 1. rewrite Hchoice.
  destruct (choice =? 5).
  { split; [reflexivity |]. eexists. reflexivity. }
  destruct ((choice <? 1) || (choice >? 5)).
  { apply holds_bind, holds_printf, IH. }
  apply operation_holds. intros num1' num2' w'' _. apply IH.
Qed.

(** Whatever integers the input holds, whatever the unset variables
    yield and however long it is followed, [main] never divides by
    zero; when it returns, it returns 0 and the goodbye message is the
    last text printed. *)
Theorem main_never_divides_by_zero (fuel : nat) (input : list Z) :
  (exists w', main fuel (Menu.World input []) = Menu.Ok 0 w' /\
              exists out, Menu.stdout w' = out ++ [Menu.goodbye]) \/
  (exists w', main fuel (Menu.World input []) = Menu.Running w').
Proof.
  pose proof (main_loop_safe fuel None None
                (Menu.World input ([] ++ [Menu.welcome]))) as Hloop.
  unfold holds in Hloop. unfold Menu.main, Menu.bind, Menu.printf.
  cbn [Menu.stdin Menu.stdout] in *.
  destruct (main_loop _ _ _ _) as [code w' | w' | w'].
  - left. exists w'. destruct Hloop as [-> Hout]. auto.
  - contradiction.
  - right. exists w'. reflexivity.
Qed.

(** The loop invariant for the runs without a 5. *)
Lemma main_loop_runs_on (fuel : nat) :
  (forall w, Int32.wrap (unset Menu.Choice w) <> 5) ->
  forall num1 num2 w,
    Forall (fun z => Int32.wrap z <> 5) (Menu.stdin w) ->
    holds (main_loop fuel num1 num2) w (fun _ _ => False) (fun _ => True).
Proof.
  intros Hunset. induction fuel as [| fuel IH]; intros num1 num2 w Hinput;
    [exact I |].
  cbn [Menu.main_loop]. apply holds_bind.
  unfold holds at 1. rewrite print_menu_run.
  apply holds_bind.
  assert (Hchoice : exists choice w',
    get_operation (Menu.World (Menu.stdin w) (Menu.stdout w ++ Menu.menu))
    = Menu.Ok choice w' /\ choice <> 5 /\
    exists read, Menu.stdin w = read ++ Menu.stdin w').
  { destruct (Menu.stdin w) as [| z rest] eqn:Hw.
    - rewrite get_operation_end. do 2 eexists.
      split; [reflexivity |]. split; [apply Hunset | now exists []].
    - rewrite get_operation_run. do 2 eexists.
      split; [reflexivity |]. split; [| now exists [z]].
      now inversion Hinput. }
  destruct Hchoice as (choice & w' & Hchoice & Hnot5 & read & Hread).
  unfold holds at 1. rewrite Hchoice.
  rewrite Hread in Hinput. apply Forall_app in Hinput as [_ Hinput].
  destruct (Z.eqb_spec choice 5) as [| _]; [contradiction |].
  destruct ((choice <? 1) || (choice >? 5)).
  { apply holds_bind, holds_printf, IH. exact Hinput. }
  apply operation_holds. intros num1' num2' w'' [read' Hread'].
  apply IH. cbn [Menu.stdin] in Hread'. rewrite Hread' in Hinput.
  now apply Forall_app in Hinput.
Qed.

(** [main] returns only through the choice 5: when no integer of the
    input is 5 and the unset [choice] never reads as 5, the loop is
    still running after any number of iterations, also when the input
    has long run out. *)
Theorem main_runs_on_without_5 (fuel : nat) (input : list Z) :
  (forall w, Int32.wrap (unset Menu.Choice w) <> 5) ->
  Forall (fun z => Int32.wrap z <> 5) input ->
  exists w', main fuel (Menu.World input []) = Menu.Running w'.
Proof.
  intros Hunset Hinput.
  pose proof (main_loop_runs_on fuel Hunset None None
                (Menu.World input ([] ++ [Menu.welcome])) Hinput) as Hloop.
  unfold holds in Hloop. unfold Menu.main, Menu.bind, Menu.printf.
  cbn [Menu.stdin Menu.stdout] in *.
  destruct (main_loop _ _ _ _) as [code w' | w' | w'].
  - contradiction.
  - contradiction.
  - exists w'. reflexivity.
Qed.

Lemma valid_choice op :
  Int32.wrap (Session.choice_of op) = Session.choice_of op /\
  (Session.choice_of op =? 5) = false /\
  ((Session.choice_of op <? 1) || (Session.choice_of op >? 5)) = false.
Proof. destruct op; repeat split; reflexivity. Qed.

(** An iteration that reads a valid choice and both operands. *)
Lemma main_loop_operate (fuel : nat) op a b num1 num2 rest out :
  Int32.in_range a -> Int32.in_range b ->
  main_loop (S fuel) num1 num2
    (Menu.World (Session.choice_of op :: a :: b :: rest) out)
  = main_loop fuel (Some a) (Some b)
      (Menu.World rest (out ++ transcript (Session.Operate op a b))).
Proof.
  intros Ha Hb. destruct (valid_choice op) as (Hwrap & Hquit & Hvalid).
  cbn [Menu.main_loop]. unfold Menu.bind at 1. rewrite print_menu_run.
  cbn [Menu.stdin Menu.stdout]. unfold Menu.bind at 1.
  rewrite get_operation_run, Hwrap, Hquit, Hvalid.
  unfold Menu.bind at 1, Menu.printf at 1. cbn [Menu.stdin Menu.stdout].
  unfold Menu.bind at 1, Menu.scanf at 1. cbn [Menu.stdin Menu.stdout].
  unfold Menu.bind at 1, Menu.printf at 1. cbn [Menu.stdin Menu.stdout].
  unfold Menu.bind at 1, Menu.scanf at 1. cbn [Menu.stdin Menu.stdout].
  rewrite (Int32.wrap_small a Ha), (Int32.wrap_small b Hb).
  unfold Menu.bind at 1. rewrite perform_run. cbn [Menu.stdin Menu.stdout].
  unfold Session.transcript. do 2 f_equal.
  repeat rewrite <- app_assoc. reflexivity.
Qed.

(** An iteration that reads a valid choice as the last integer of the
    input: both calls of [scanf] fail and the operands keep the values
    of the operation before. *)
Lemma main_loop_operate_last (fuel : nat) op a b out :
  main_loop (S fuel) (Some a) (Some b)
    (Menu.World [Session.choice_of op] out)
  = main_loop fuel (Some a) (Some b)
      (Menu.World [] (out ++ transcript (Session.Operate op a b))).
Proof.
  destruct (valid_choice op) as (Hwrap & Hquit & Hvalid).
  cbn [Menu.main_loop]. unfold Menu.bind at 1. rewrite print_menu_run.
  cbn [Menu.stdin Menu.stdout]. unfold Menu.bind at 1.
  rewrite get_operation_run, Hwrap, Hquit, Hvalid.
  unfold Menu.bind at 1, Menu.printf at 1. cbn [Menu.stdin Menu.stdout].
  unfold Menu.bind at 1, Menu.scanf at 1. cbn [Menu.stdin Menu.stdout].
  unfold Menu.bind at 1, Menu.printf at 1. cbn [Menu.stdin Menu.stdout].
  unfold Menu.bind at 1, Menu.scanf at 1. cbn [Menu.stdin Menu.stdout].
  unfold Menu.bind at 1. rewrite perform_run. cbn [Menu.stdin Menu.stdout].
  unfold Session.transcript. do 2 f_equal.
  repeat rewrite <- app_assoc. reflexivity.
Qed.

(** An iteration that reads a choice outside 1..5. *)
Lemma main_loop_mistype (fuel : nat) choice num1 num2 rest out :
  Int32.in_range choice -> choice < 1 \/ 5 < choice ->
  main_loop (S fuel) num1 num2 (Menu.World (choice :: rest) out)
  = main_loop fuel num1 num2
      (Menu.World rest (out ++ transcript (Session.Mistype choice))).
Proof.
  intros Hrange Hc.
  assert (Hquit : (choice =? 5) = false) by (apply Z.eqb_neq; lia).
  assert (Hinvalid : ((choice <? 1) || (choice >? 5)) = true).
  { apply orb_true_iff. destruct Hc as [Hlow | Hhigh].
    - left. now apply Z.ltb_lt.
    - right. apply Z.gtb_lt. lia. }
  cbn [Menu.main_loop]. unfold Menu.bind at 1. rewrite print_menu_run.
  cbn [Menu.stdin Menu.stdout]. unfold Menu.bind at 1.
  rewrite get_operation_run, (Int32.wrap_small choice Hrange), Hquit, Hinvalid.
  unfold Menu.bind at 1, Menu.printf at 1. cbn [Menu.stdin Menu.stdout].
  unfold Session.transcript. do 2 f_equal.
  repeat rewrite <- app_assoc. reflexivity.
Qed.

(** The iteration that reads the choice 5. *)
Lemma main_loop_quit (fuel : nat) num1 num2 rest out :
  main_loop (S fuel) num1 num2 (Menu.World (5 :: rest) out)
  = Menu.Ok 0
      (Menu.World rest (out ++ Menu.menu ++ [Menu.prompt; Menu.goodbye])).
Proof.
  cbn [Menu.main_loop]. unfold Menu.bind at 1. rewrite print_menu_run.
  cbn [Menu.stdin Menu.stdout]. unfold Menu.bind at 1.
  rewrite get_operation_run.
  change (Int32.wrap 5) with 5. cbn [Z.eqb Pos.eqb].
  unfold Menu.bind, Menu.printf, Menu.ret. cbn [Menu.stdin Menu.stdout].
  repeat rewrite <- app_assoc. reflexivity.
Qed.

(** One iteration for each command of a session, then the last one for
    the choice 5; what follows it in the input is left unread. *)
Lemma main_loop_session cmds : forall (fuel : nat) num1 num2 out rest,
  Forall Session.well_formed cmds ->
  (List.length cmds < fuel)%nat ->
  main_loop fuel num1 num2
    (Menu.World (flat_map Session.keys cmds ++ 5 :: rest) out)
  = Menu.Ok 0
      (Menu.World rest
         (out ++ flat_map transcript cmds
              ++ Menu.menu ++ [Menu.prompt; Menu.goodbye])).
Proof.
  induction cmds as [| c cmds IH]; intros fuel num1 num2 out rest Hwf Hfuel;
    (destruct fuel as [| fuel]; [cbn [List.length] in Hfuel; lia |]);
    cbn [flat_map app].
  - apply main_loop_quit.
  - inversion Hwf as [| c' cmds' Hc Hcmds]; subst.
    cbn [List.length] in Hfuel.
    destruct c as [op a b | choice]; cbn [Session.keys app];
      cbn [Session.well_formed] in Hc.
    + destruct Hc as [Ha Hb].
      rewrite main_loop_operate, IH by (assumption || lia).
      now rewrite <- !app_assoc.
    + destruct Hc as [Hrange Hc].
      rewrite main_loop_mistype, IH by (assumption || lia).
      now rewrite <- !app_assoc.
Qed.

(** A whole session: for commands that are operations with their two
    [int] operands or [int] choices outside 1..5, followed by the
    choice 5, [main], followed for more iterations than there are
    commands, prints the welcome, the transcript of each command in
    turn, the menu once more and the goodbye, and returns 0; the
    integers after the 5 are not read. *)
Theorem main_session (fuel : nat) cmds rest :
  Forall Session.well_formed cmds ->
  (List.length cmds < fuel)%nat ->
  main fuel (Menu.World (flat_map Session.keys cmds ++ 5 :: rest) [])
  = Menu.Ok 0
      (Menu.World rest
         ([Menu.welcome] ++ flat_map transcript cmds
            ++ Menu.menu ++ [Menu.prompt; Menu.goodbye])).
Proof.
  intros Hwf Hfuel. unfold Menu.main, Menu.bind at 1, Menu.printf at 1.
  cbn [Menu.stdin Menu.stdout]. now apply main_loop_session.
Qed.

(** At the end of the input [scanf] leaves the operands as they were:
    a valid choice that comes last, after an operation on [a] and [b],
    is answered for the same [a] and [b]. After these two iterations
    the loop is still running. *)
Theorem main_reuses_operands op a b op' :
  Int32.in_range a -> Int32.in_range b ->
  main 2 (Menu.World
            (Session.keys (Session.Operate op a b) ++ [Session.choice_of op']) [])
  = Menu.Running
      (Menu.World []
         ([Menu.welcome] ++ transcript (Session.Operate op a b)
            ++ transcript (Session.Operate op' a b))).
Proof.
  intros Ha Hb. unfold Menu.main, Menu.bind at 1, Menu.printf at 1.
  cbn [Menu.stdin Menu.stdout Session.keys app].
  rewrite main_loop_operate, main_loop_operate_last by assumption.
  cbn [Menu.main_loop]. now rewrite <- !app_assoc.
Qed.

End MainFacts.

Lemma main_runs_on_without_5_witness :
  exists w',
    Menu.main Q inject_Z Qdiv (0 # 1)%Q (fun q => Menu.decimal (Qnum q))
      (fun _ _ => 0) 6 (Menu.World [4; 7; 0; 9; 2] [])
    = Menu.Running w'.
Proof.
  apply (main_runs_on_without_5 Q inject_Z Qdiv (0 # 1)%Q
           (fun q => Menu.decimal (Qnum q)) (fun _ _ => 0) 6 [4; 7; 0; 9; 2]).
  - intros w. vm_compute. discriminate.
  - repeat constructor; vm_compute; discriminate.
Defined.

Lemma main_session_witness :
  Menu.main Q inject_Z Qdiv (0 # 1)%Q (fun q => Menu.decimal (Qnum q))
    (fun _ _ => 0) 4
    (Menu.World
       (flat_map Session.keys
          [Session.Operate Session.Add 2 3; Session.Mistype 9;
           Session.Operate Session.Divide 1 0] ++ 5 :: [7]) [])
  = Menu.Ok 0
      (Menu.World [7]
         ([Menu.welcome]
            ++ flat_map
                 (Session.transcript Q inject_Z Qdiv (0 # 1)%Q
                    (fun q => Menu.decimal (Qnum q)))
                 [Session.Operate Session.Add 2 3; Session.Mistype 9;
                  Session.Operate Session.Divide 1 0]
            ++ Menu.menu ++ [Menu.prompt; Menu.goodbye])).
Proof.
  apply (main_session Q inject_Z Qdiv (0 # 1)%Q
           (fun q => Menu.decimal (Qnum q)) (fun _ _ => 0) 4).
  - constructor; [split; range |].
    constructor; [split; [range | right; reflexivity] |].
    constructor; [split; range | constructor].
  - cbn. lia.
Defined.

Lemma main_reuses_operands_witness :
  Menu.main Q inject_Z Qdiv (0 # 1)%Q (fun q => Menu.decimal (Qnum q))
    (fun _ _ => 0) 2
    (Menu.World
       (Session.keys (Session.Operate Session.Add 2 3)
          ++ [Session.choice_of Session.Multiply]) [])
  = Menu.Running
      (Menu.World []
         ([Menu.welcome]
            ++ Session.transcript Q inject_Z Qdiv (0 # 1)%Q
                 (fun q => Menu.decimal (Qnum q))
                 (Session.Operate Session.Add 2 3)
            ++ Session.transcript Q inject_Z Qdiv (0 # 1)%Q
                 (fun q => Menu.decimal (Qnum q))
                 (Session.Operate Session.Multiply 2 3))).
Proof.
  apply (main_reuses_operands Q inject_Z Qdiv (0 # 1)%Q
           (fun q => Menu.decimal (Qnum q)) (fun _ _ => 0)
           Session.Add 2 3 Session.Multiply); range.
Defined.

(** A run: 2 + 3, then the choice 5. *)
Example main_2_plus_3 :
  Menu.main Q inject_Z Qdiv (0 # 1)%Q (fun q => Menu.decimal (Qnum q))
    (fun _ _ => 0) 2 (Menu.World [1; 2; 3; 5] [])
  = Menu.Ok 0
      (Menu.World []
         ([Menu.welcome] ++ Menu.menu
            ++ [Menu.prompt; Menu.first_number; Menu.second_number;
                Menu.line "Result: 2 + 3 = 5"]
            ++ Menu.menu ++ [Menu.prompt; Menu.goodbye])).
Proof. vm_compute. reflexivity. Qed.

(** A run on an empty input, the unset variables reading as 0: the
    choice 0 is refused again and again. *)
Example main_empty_input :
  Menu.main Q inject_Z Qdiv (0 # 1)%Q (fun q => Menu.decimal (Qnum q))
    (fun _ _ => 0) 2 (Menu.World [] [])
  = Menu.Running
      (Menu.World []
         ([Menu.welcome]
            ++ Menu.menu ++ [Menu.prompt; Menu.invalid_choice]
            ++ Menu.menu ++ [Menu.prompt; Menu.invalid_choice])).
Proof. vm_compute. reflexivity. Qed.
